(** * kbld registry client: retry, transport and facade

    A shallow embedding of [pkg/kbld/registry/registry.go].

    The Go package talks to three collaborators it does not implement: the
    reference parser ([regname]), the registry protocol ([regremote]) and the
    operating system ([os.ReadFile], [x509], [time.Sleep]).  They are gathered
    in the interface [Library]; the code of [registry.go] is written over it
    in a state monad whose state is the outside world together with the
    history of the calls that left the package. *)

From Stdlib Require Import String List ZArith Lia Bool Arith.
Import ListNotations.

Local Open Scope string_scope.
Local Open Scope list_scope.

(** ** Go values *)

(** A Go [error] is identified with its message ([err.Error()]); the [nil]
    error is [None].  [fmt.Errorf] with the verb [%s] only keeps the message
    of its argument, so this loses nothing of what the package builds. *)
Definition error := string.

(** [time.Duration]: a count of nanoseconds. *)
Definition Duration := Z.
Definition time_Second : Duration := 1000000000%Z.

(** What [fmt] prints for the verb [%s]: the message, or the marker of a
    [nil] operand. *)
Definition fmt_s (err : option error) : string :=
  match err with
  | Some msg => msg
  | None => "%!s(<nil>)"
  end.

(** ** Configuration and transport *)

Record Opts := {
  CACertPaths : list string;
  VerifyCerts : bool;
  Insecure : bool;
  EnvAuthPrefix : string
}.

(** The zero value of [Opts]: what a caller gets from [Opts{}], and what
    every field left out of a composite literal is set to. *)
Definition Opts_zero : Opts :=
  {| CACertPaths := []; VerifyCerts := false; Insecure := false;
     EnvAuthPrefix := "" |}.

(** [regname.Option]: the package only ever passes [regname.Insecure]. *)
Inductive NameOption := name_Insecure.

(** [authn.Keychain] values are built and handed over, never inspected. *)
#[warnings="-register-all"]
Inductive Keychain :=
| NewEnvKeychain (prefix : string)
| DefaultKeychain
| NewMultiKeychain (kcs : list Keychain).

Inductive ProxyFunc := ProxyFromEnvironment.

Record Dialer := {
  Timeout : Duration;
  KeepAlive : Duration;
  DualStack : bool
}.

Record tls_Config (Pool : Type) := {
  RootCAs : Pool;
  InsecureSkipVerify : bool
}.
Arguments RootCAs {Pool} _.
Arguments InsecureSkipVerify {Pool} _.

Record Transport (Pool : Type) := {
  Proxy : ProxyFunc;
  DialContext : Dialer;
  MaxIdleConns : Z;
  IdleConnTimeout : Duration;
  TLSHandshakeTimeout : Duration;
  ResponseHeaderTimeout : Duration;
  ExpectContinueTimeout : Duration;
  TLSClientConfig : tls_Config Pool
}.
Arguments Proxy {Pool} _.
Arguments DialContext {Pool} _.
Arguments MaxIdleConns {Pool} _.
Arguments IdleConnTimeout {Pool} _.
Arguments TLSHandshakeTimeout {Pool} _.
Arguments ResponseHeaderTimeout {Pool} _.
Arguments ExpectContinueTimeout {Pool} _.
Arguments TLSClientConfig {Pool} _.

(** [regremote.Option] *)
Inductive RemoteOption (Pool : Type) :=
| WithTransport (t : Transport Pool)
| WithAuthFromKeychain (k : Keychain).
Arguments WithTransport {Pool} _.
Arguments WithAuthFromKeychain {Pool} _.

(** ** The collaborators *)

(** Everything [registry.go] imports and calls.  Parsing is pure; the calls
    of [regremote] and of the operating system read and change the outside
    world [Env]. *)
Class Library := {
  (* regname *)
  Reference : Type;
  Tag : Type;
  Digest : Type;
  Repository : Type;
  Reference_String : Reference -> string;
  Tag_String : Tag -> string;
  Digest_String : Digest -> string;
  Repository_Name : Repository -> string;
  (* a [regname.Digest] is passed where a [regname.Reference] is expected *)
  Digest_Reference : Digest -> Reference;
  ParseReference : string -> list NameOption -> Reference + error;
  NewTag : string -> list NameOption -> Tag + error;
  NewDigest : string -> list NameOption -> Digest + error;
  NewRepository : string -> list NameOption -> Repository + error;
  (* regv1 *)
  v1_Descriptor : Type;
  v1_Image : Type;
  v1_ImageIndex : Type;
  (* x509 *)
  CertPool : Type;
  NewCertPool : CertPool;
  (* [pool.AppendCertsFromPEM(certs)]: the pool with the certificates found
     in [certs] added, and whether any certificate was found *)
  AppendCertsFromPEM : CertPool -> string -> CertPool * bool;
  (* the outside world *)
  Env : Type;
  SystemCertPool : Env -> CertPool + error;
  ReadFile : string -> Env -> string + error;
  Sleep : Duration -> Env -> Env;
  (* regremote *)
  remote_Descriptor : Type;
  Descriptor_Descriptor : remote_Descriptor -> v1_Descriptor;
  remote_Get : Reference -> list (RemoteOption CertPool) -> Env ->
               (remote_Descriptor + error) * Env;
  remote_Image : Reference -> list (RemoteOption CertPool) -> Env ->
                 (v1_Image + error) * Env;
  remote_Write : Reference -> v1_Image -> list (RemoteOption CertPool) ->
                 Env -> option error * Env;
  remote_Index : Reference -> list (RemoteOption CertPool) -> Env ->
                 (v1_ImageIndex + error) * Env;
  remote_WriteIndex : Reference -> v1_ImageIndex ->
                      list (RemoteOption CertPool) -> Env ->
                      option error * Env;
  remote_Tag : Tag -> remote_Descriptor -> list (RemoteOption CertPool) ->
               Env -> option error * Env;
  remote_List : Repository -> list (RemoteOption CertPool) -> Env ->
                (list string + error) * Env
}.

Section Model.

Context {L : Library}.

(** ** The world and its history *)

(** One entry for each call that leaves the package. *)
Inductive Event :=
| EvSystemCertPool
| EvReadFile (path : string)
| EvSleep (d : Duration)
| EvGet (ref : Reference)
| EvImage (ref : Reference)
| EvWrite (ref : Reference) (img : v1_Image)
| EvIndex (ref : Reference)
| EvWriteIndex (ref : Reference) (idx : v1_ImageIndex)
| EvTag (dst : Tag) (desc : remote_Descriptor)
| EvList (repo : Repository)
| EvDoFunc  (* a call of a closure under observation, see [counted] *).

Record World := {
  env : Env;
  log : list Event
}.

Definition M (A : Type) : Type := World -> A * World.

Definition ret {A} (a : A) : M A := fun w => (a, w).

Definition bind {A B} (m : M A) (k : A -> M B) : M B :=
  fun w => let (a, w') := m w in k a w'.

Definition record (ev : Event) (w : World) : World :=
  {| env := env w; log := log w ++ [ev] |}.

(** A call that reads the world. *)
Definition observe {A} (ev : Event) (f : Env -> A) : M A :=
  fun w => (f (env w), record ev w).

(** A call that reads and changes the world. *)
Definition perform {A} (ev : Event) (f : Env -> A * Env) : M A :=
  fun w => let (a, e') := f (env w) in
           (a, {| env := e'; log := log w ++ [ev] |}).

End Model.

Declare Scope go_scope.
Delimit Scope go_scope with go.
Notation "x <- c1 ;; c2" := (bind c1 (fun x => c2))
  (at level 61, c1 at next level, right associativity) : go_scope.
Notation "c1 ;;; c2" := (bind c1 (fun _ => c2))
  (at level 61, right associativity) : go_scope.

Section Code.

Context {L : Library}.
Local Open Scope go_scope.

(** ** Calls that leave the package *)

Definition x509_SystemCertPool : M (CertPool + error) :=
  observe EvSystemCertPool SystemCertPool.

Definition os_ReadFile (path : string) : M (string + error) :=
  observe (EvReadFile path) (ReadFile path).

Definition time_Sleep (d : Duration) : M unit :=
  perform (EvSleep d) (fun e => (tt, Sleep d e)).

Definition regremote_Get (ref : Reference) (o : list (RemoteOption CertPool))
  : M (remote_Descriptor + error) :=
  perform (EvGet ref) (remote_Get ref o).

Definition regremote_Image (ref : Reference) (o : list (RemoteOption CertPool))
  : M (v1_Image + error) :=
  perform (EvImage ref) (remote_Image ref o).

Definition regremote_Write (ref : Reference) (img : v1_Image)
  (o : list (RemoteOption CertPool)) : M (option error) :=
  perform (EvWrite ref img) (remote_Write ref img o).

Definition regremote_Index (ref : Reference) (o : list (RemoteOption CertPool))
  : M (v1_ImageIndex + error) :=
  perform (EvIndex ref) (remote_Index ref o).

Definition regremote_WriteIndex (ref : Reference) (idx : v1_ImageIndex)
  (o : list (RemoteOption CertPool)) : M (option error) :=
  perform (EvWriteIndex ref idx) (remote_WriteIndex ref idx o).

Definition regremote_Tag (dst : Tag) (desc : remote_Descriptor)
  (o : list (RemoteOption CertPool)) : M (option error) :=
  perform (EvTag dst desc) (remote_Tag dst desc o).

Definition regremote_List (repo : Repository)
  (o : list (RemoteOption CertPool)) : M (list string + error) :=
  perform (EvList repo) (remote_List repo o).

(** ** registry.go *)

Record Registry := {
  opts : list (RemoteOption CertPool);
  refOpts : list NameOption
}.

(** The body of [for _, path := range opts.CACertPaths]. *)
Fixpoint load_CACertPaths (paths : list string) (pool : CertPool)
  : M (CertPool + error) :=
  match paths with
  | [] => ret (inl pool)
  | path :: rest =>
      r <- os_ReadFile path ;;
      match r with
      | inr err =>
          ret (inr ("Reading CA certificates from '" ++ path ++ "': "
                      ++ fmt_s (Some err))%string)
      | inl certs =>
          let (pool', ok) := AppendCertsFromPEM pool certs in
          if negb ok
          then ret (inr ("Adding CA certificates from '" ++ path
                           ++ "': failed")%string)
          else load_CACertPaths rest pool'
      end
  end.

Definition newHTTPTransport (o : Opts) : M (Transport CertPool + error) :=
  r <- x509_SystemCertPool ;;
  let pool := match r with
              | inl p => p
              | inr _ => NewCertPool
              end in
  r <- (if (0 <? length (CACertPaths o))%nat
        then load_CACertPaths (CACertPaths o) pool
        else ret (inl pool)) ;;
  match r with
  | inr err => ret (inr err)
  | inl pool =>
      ret (inl {|
        Proxy := ProxyFromEnvironment;
        DialContext := {| Timeout := (30 * time_Second)%Z;
                          KeepAlive := (30 * time_Second)%Z;
                          DualStack := true |};
        MaxIdleConns := 100%Z;
        IdleConnTimeout := (90 * time_Second)%Z;
        TLSHandshakeTimeout := (10 * time_Second)%Z;
        ResponseHeaderTimeout := (10 * time_Second)%Z;
        ExpectContinueTimeout := (1 * time_Second)%Z;
        TLSClientConfig := {| RootCAs := pool;
                              InsecureSkipVerify :=
                                Bool.eqb (VerifyCerts o) false |}
      |})
  end.

Definition NewRegistry (o : Opts) : M (Registry + error) :=
  let keychain :=
    NewMultiKeychain [NewEnvKeychain (EnvAuthPrefix o); DefaultKeychain] in
  r <- newHTTPTransport o ;;
  match r with
  | inr err => ret (inr err)
  | inl transport =>
      let refOpts := [] in
      let refOpts := if Insecure o then refOpts ++ [name_Insecure]
                     else refOpts in
      ret (inl {| opts := [WithTransport transport;
                           WithAuthFromKeychain keychain];
                  refOpts := refOpts |})
  end.

(** [for i := 0; i < 5; i++ { ... }] with [n] iterations left to run, then
    the [return] after the loop. *)
Fixpoint retry_loop (n : nat) (doFunc : M (option error))
  (lastErr : option error) : M (option error) :=
  match n with
  | O => ret (Some ("Retried 5 times: " ++ fmt_s lastErr)%string)
  | S n' =>
      lastErr <- doFunc ;;
      match lastErr with
      | None => ret None
      | Some _ =>
          time_Sleep (1 * time_Second)%Z ;;; retry_loop n' doFunc lastErr
      end
  end.

Definition retry (i : Registry) (doFunc : M (option error))
  : M (option error) :=
  retry_loop 5 doFunc None.

Definition Generic (i : Registry) (ref : Reference)
  : M (v1_Descriptor + error) :=
  match ParseReference (Reference_String ref) (refOpts i) with
  | inr err => ret (inr err)
  | inl ref =>
      r <- regremote_Get ref (opts i) ;;
      match r with
      | inr err => ret (inr err)
      | inl desc => ret (inl (Descriptor_Descriptor desc))
      end
  end.

Definition Image (i : Registry) (ref : Reference) : M (v1_Image + error) :=
  match ParseReference (Reference_String ref) (refOpts i) with
  | inr err => ret (inr err)
  | inl ref => regremote_Image ref (opts i)
  end.

Definition WriteImage (i : Registry) (ref : Reference) (img : v1_Image)
  : M (option error) :=
  match ParseReference (Reference_String ref) (refOpts i) with
  | inr err => ret (Some err)
  | inl ref =>
      err <- retry i (regremote_Write ref img (opts i)) ;;
      match err with
      | Some _ => ret (Some ("Writing image: " ++ fmt_s err)%string)
      | None => ret None
      end
  end.

Definition Index (i : Registry) (ref : Reference)
  : M (v1_ImageIndex + error) :=
  match ParseReference (Reference_String ref) (refOpts i) with
  | inr err => ret (inr err)
  | inl ref => regremote_Index ref (opts i)
  end.

Definition WriteIndex (i : Registry) (ref : Reference) (idx : v1_ImageIndex)
  : M (option error) :=
  match ParseReference (Reference_String ref) (refOpts i) with
  | inr err => ret (Some err)
  | inl ref =>
      err <- retry i (regremote_WriteIndex ref idx (opts i)) ;;
      match err with
      | Some _ => ret (Some ("Writing image index: " ++ fmt_s err)%string)
      | None => ret None
      end
  end.

(** The closure [WriteTag] hands to [retry]. *)
Definition WriteTag_doFunc (i : Registry) (dstRef : Tag) (srcRef : Digest)
  : M (option error) :=
  r <- regremote_Get (Digest_Reference srcRef) (opts i) ;;
  match r with
  | inr err => ret (Some err)
  | inl desc => regremote_Tag dstRef desc (opts i)
  end.

Definition WriteTag (i : Registry) (dstRef : Tag) (srcRef : Digest)
  : M (option error) :=
  match NewTag (Tag_String dstRef) (refOpts i) with
  | inr err => ret (Some err)
  | inl dstRef =>
      match NewDigest (Digest_String srcRef) (refOpts i) with
      | inr err => ret (Some err)
      | inl srcRef =>
          err <- retry i (WriteTag_doFunc i dstRef srcRef) ;;
          match err with
          | Some _ => ret (Some ("Writing image tag: " ++ fmt_s err)%string)
          | None => ret None
          end
      end
  end.

Definition ListTags (i : Registry) (repo : Repository)
  : M (list string + error) :=
  match NewRepository (Repository_Name repo) (refOpts i) with
  | inr err => ret (inr err)
  | inl repo => regremote_List repo (opts i)
  end.

End Code.

(** ** Reading a history *)

Section Observations.

Context {L : Library}.

Definition is_sleep (ev : Event) : bool :=
  match ev with EvSleep _ => true | _ => false end.

Definition is_doFunc (ev : Event) : bool :=
  match ev with EvDoFunc => true | _ => false end.



Definition is_write (ev : Event) : bool :=
  match ev with EvWrite _ _ | EvWriteIndex _ _ | EvTag _ _ => true
           | _ => false end.

Definition count (p : Event -> bool) (evs : list Event) : nat :=
  length (filter p evs).

(** Total time spent in [time.Sleep]. *)
Fixpoint slept (evs : list Event) : Duration :=
  match evs with
  | [] => 0%Z
  | EvSleep d :: rest => (d + slept rest)%Z
  | _ :: rest => slept rest
  end.

(** What a run from [w] to [w'] added to the history. *)
Definition since (w w' : World) : list Event :=
  skipn (length (log w)) (log w').

(** The world once [retry] has slept its second. *)
Definition after_sleep (w : World) : World :=
  {| env := Sleep (1 * time_Second)%Z (env w);
     log := log w ++ [EvSleep (1 * time_Second)%Z] |}.

(** [n] rounds of the same events. *)
Fixpoint rounds (n : nat) (round : list Event) : list Event :=
  match n with
  | O => []
  | S n' => round ++ rounds n' round
  end.

(** A closure whose calls are counted: it acts on the world as [op] does and
    leaves one [EvDoFunc] in the history each time it is called. *)
Definition counted (op : Env -> option error * Env) : M (option error) :=
  perform EvDoFunc op.

(** The errors of [n] attempts in a row, each followed by the one-second
    sleep of [retry], when all [n] of them fail. *)
Fixpoint failures (op : Env -> option error * Env) (n : nat) (e : Env)
  : option (list error) :=
  match n with
  | O => Some []
  | S n' =>
      match op e with
      | (Some err, e') =>
          option_map (cons err)
                     (failures op n' (Sleep (1 * time_Second)%Z e'))
      | (None, _) => None
      end
  end.

(** [op] fails [k] times in a row, with the sleep of [retry] after each
    failure, and succeeds the next time. *)
Fixpoint fails_then_succeeds (op : Env -> option error * Env) (k : nat)
  (e : Env) : bool :=
  match k with
  | O => match fst (op e) with None => true | Some _ => false end
  | S k' =>
      match op e with
      | (Some _, e') =>
          fails_then_succeeds op k' (Sleep (1 * time_Second)%Z e')
      | (None, _) => false
      end
  end.

(** The message of the last failure. *)
Definition last_error (errs : list error) : option error :=
  last (map Some errs) None.

(** What a closure does to the world, leaving the history aside. *)
Definition acts_as (m : M (option error))
  (op : Env -> option error * Env) : Prop :=
  forall w, fst (m w) = fst (op (env w)) /\
            env (snd (m w)) = snd (op (env w)).

(** The three closures handed to [retry], as functions of the world. *)
Definition Write_op (i : Registry) (ref : Reference) (img : v1_Image)
  : Env -> option error * Env :=
  remote_Write ref img (opts i).

Definition WriteIndex_op (i : Registry) (ref : Reference)
  (idx : v1_ImageIndex) : Env -> option error * Env :=
  remote_WriteIndex ref idx (opts i).

Definition WriteTag_op (i : Registry) (dst : Tag) (src : Digest)
  : Env -> option error * Env :=
  fun e =>
    match remote_Get (Digest_Reference src) (opts i) e with
    | (inr err, e') => (Some err, e')
    | (inl desc, e') => remote_Tag dst desc (opts i) e'
    end.



(** What a retried write returns: nothing once an attempt succeeds, and the
    last of five failures behind the label of the operation and the prefix
    of [retry]. *)
Definition wrapped (label : string) (op : Env -> option error * Env)
  (e : Env) : option error :=
  match failures op 5 e with
  | Some errs =>
      Some (label ++ "Retried 5 times: " ++ fmt_s (last_error errs))%string
  | None => None
  end.

(** The CA files of [paths] all load: the pool they leave. *)
Fixpoint pool_after (paths : list string) (pool : CertPool) (e : Env)
  : option CertPool :=
  match paths with
  | [] => Some pool
  | path :: rest =>
      match ReadFile path e with
      | inr _ => None
      | inl certs =>
          let (pool', ok) := AppendCertsFromPEM pool certs in
          if ok then pool_after rest pool' e else None
      end
  end.

(** The pool [newHTTPTransport] starts from. *)
Definition initial_pool (e : Env) : CertPool :=
  match SystemCertPool e with
  | inl p => p
  | inr _ => NewCertPool
  end.

Definition ReadError (path : string) (cause : error) : error :=
  ("Reading CA certificates from '" ++ path ++ "': " ++ cause)%string.

Definition ParseError (path : string) : error :=
  ("Adding CA certificates from '" ++ path ++ "': failed")%string.

(** [needle] occurs in [s]. *)
Definition mentions (s needle : string) : bool :=
  match index 0 needle s with
  | Some _ => true
  | None => false
  end.

(** The file [path] does not load into [pool]: it cannot be read, or it
    holds no certificate. *)
Definition fails_to_load (path : string) (pool : CertPool) (e : Env) : bool :=
  match ReadFile path e with
  | inr _ => true
  | inl certs => negb (snd (AppendCertsFromPEM pool certs))
  end.

(** The error [newHTTPTransport] has for a file that does not load. *)
Definition load_error (path : string) (e : Env) : error :=
  match ReadFile path e with
  | inr cause => ReadError path cause
  | inl _ => ParseError path
  end.

(** The runs of the retried part of [WriteTag], told attempt by attempt:
    [WriteTag_history i dst src n e lastErr evs r] says that with [n]
    attempts to go, in the world [e] and with [lastErr] the error of the
    attempt before, the calls made are [evs] and the value handed back by
    [retry] is [r].  Every attempt opens with the read of the source in the
    world as it then is.  When the read fails the attempt is over: a sleep,
    and the next attempt.  When the read gives a descriptor, that descriptor
    is tagged at the destination; a failed tagging ends the attempt in the
    same way, a successful one ends the run.  With no attempt left the last
    error comes back behind the prefix of [retry]. *)
Inductive WriteTag_history (i : Registry) (dst : Tag) (src : Digest)
  : nat -> Env -> option error -> list Event -> option error -> Prop :=
| wth_exhausted e lastErr :
    WriteTag_history i dst src 0 e lastErr []
      (Some ("Retried 5 times: " ++ fmt_s lastErr)%string)
| wth_read_failed n e lastErr err e1 evs r :
    remote_Get (Digest_Reference src) (opts i) e = (inr err, e1) ->
    WriteTag_history i dst src n (Sleep (1 * time_Second)%Z e1) (Some err)
      evs r ->
    WriteTag_history i dst src (S n) e lastErr
      (EvGet (Digest_Reference src) :: EvSleep (1 * time_Second)%Z :: evs) r
| wth_tag_failed n e lastErr desc e1 err e2 evs r :
    remote_Get (Digest_Reference src) (opts i) e = (inl desc, e1) ->
    remote_Tag dst desc (opts i) e1 = (Some err, e2) ->
    WriteTag_history i dst src n (Sleep (1 * time_Second)%Z e2) (Some err)
      evs r ->
    WriteTag_history i dst src (S n) e lastErr
      (EvGet (Digest_Reference src) :: EvTag dst desc
         :: EvSleep (1 * time_Second)%Z :: evs) r
| wth_tagged n e lastErr desc e1 e2 :
    remote_Get (Digest_Reference src) (opts i) e = (inl desc, e1) ->
    remote_Tag dst desc (opts i) e1 = (None, e2) ->
    WriteTag_history i dst src (S n) e lastErr
      [EvGet (Digest_Reference src); EvTag dst desc] None.


End Observations.

(** ** A small world to run the code in *)

Module Sample.

Record SampleEnv := {
  files : list (string * string);
  replies : list (option error);
  clock : Duration
}.

Definition lookup_file (path : string) (fs : list (string * string))
  : option string :=
  option_map snd (find (fun kv => String.eqb (fst kv) path) fs).

Definition sample_ReadFile (path : string) (e : SampleEnv)
  : string + error :=
  match lookup_file path (files e) with
  | Some contents => inl contents
  | None => inr ("open " ++ path ++ ": no such file or directory")%string
  end.

Definition sample_AppendCertsFromPEM (pool : list string) (certs : string)
  : list string * bool :=
  if prefix "-----BEGIN CERTIFICATE-----" certs
  then (pool ++ [certs], true)
  else (pool, false).

(** The registry answers the next call with the head of [replies], and with
    success once the list is used up. *)
Definition next_reply (e : SampleEnv) : option error * SampleEnv :=
  match replies e with
  | [] => (None, e)
  | r :: rest =>
      (r, {| files := files e; replies := rest; clock := clock e |})
  end.

Definition answer {A} (a : A) (e : SampleEnv) : (A + error) * SampleEnv :=
  match next_reply e with
  | (None, e') => (inl a, e')
  | (Some err, e') => (inr err, e')
  end.

(** A stand-in for the parser of [regname], for running the code: it turns
    down the empty string and takes every other reference, with or without
    [regname.Insecure]; the option is no ground for turning a reference
    down. *)
Definition sample_parse (s : string) (o : list NameOption) : string + error :=
  if String.eqb s "" then inr "could not parse reference: "%string
  else inl s.

Definition sample : Library := {|
  Reference := string;
  Tag := string;
  Digest := string;
  Repository := string;
  Reference_String := fun s => s;
  Tag_String := fun s => s;
  Digest_String := fun s => s;
  Repository_Name := fun s => s;
  Digest_Reference := fun s => s;
  ParseReference := sample_parse;
  NewTag := sample_parse;
  NewDigest := sample_parse;
  NewRepository := sample_parse;
  v1_Descriptor := string;
  v1_Image := string;
  v1_ImageIndex := string;
  CertPool := list string;
  NewCertPool := [];
  AppendCertsFromPEM := sample_AppendCertsFromPEM;
  Env := SampleEnv;
  SystemCertPool := fun _ => inl ["system roots"%string];
  ReadFile := sample_ReadFile;
  Sleep := fun d e => {| files := files e; replies := replies e;
                         clock := (clock e + d)%Z |};
  remote_Descriptor := string;
  Descriptor_Descriptor := fun d => d;
  remote_Get := fun ref _ => answer ref;
  remote_Image := fun ref _ => answer ref;
  remote_Write := fun _ _ _ => next_reply;
  remote_Index := fun ref _ => answer ref;
  remote_WriteIndex := fun _ _ _ => next_reply;
  remote_Tag := fun _ _ _ => next_reply;
  remote_List := fun _ _ => answer ["latest"%string]
|}.

Definition world (fs : list (string * string)) (rs : list (option error))
  : @World sample :=
  {| env := {| files := fs; replies := rs; clock := 0%Z |} : @Env sample;
     log := [] |}.

Definition pem : string :=
  "-----BEGIN CERTIFICATE-----MIIB-----END CERTIFICATE-----".

(** A client as [NewRegistry] builds it, without the file reads. *)
Definition client (insecure : bool) : @Registry sample :=
  {| opts := [];
     refOpts := if insecure then [name_Insecure] else [] |}.

Definition down (n : nat) : list (option error) :=
  map (fun k =>
         Some ("connection refused #"
                 ++ String (Ascii.ascii_of_nat (49 + k)) "")%string)
      (seq 0 n).

End Sample.

Import Sample.

(** The same world on a host without a system trust store. *)
Definition rootless : Library := {|
  Reference := string;
  Tag := string;
  Digest := string;
  Repository := string;
  Reference_String := fun s => s;
  Tag_String := fun s => s;
  Digest_String := fun s => s;
  Repository_Name := fun s => s;
  Digest_Reference := fun s => s;
  ParseReference := sample_parse;
  NewTag := sample_parse;
  NewDigest := sample_parse;
  NewRepository := sample_parse;
  v1_Descriptor := string;
  v1_Image := string;
  v1_ImageIndex := string;
  CertPool := list string;
  NewCertPool := [];
  AppendCertsFromPEM := sample_AppendCertsFromPEM;
  Env := SampleEnv;
  SystemCertPool := fun _ => inr "system root pool is not available"%string;
  ReadFile := sample_ReadFile;
  Sleep := fun d e => {| files := files e; replies := replies e;
                         clock := (clock e + d)%Z |};
  remote_Descriptor := string;
  Descriptor_Descriptor := fun d => d;
  remote_Get := fun ref _ => answer ref;
  remote_Image := fun ref _ => answer ref;
  remote_Write := fun _ _ _ => next_reply;
  remote_Index := fun ref _ => answer ref;
  remote_WriteIndex := fun _ _ _ => next_reply;
  remote_Tag := fun _ _ _ => next_reply;
  remote_List := fun _ _ => answer ["latest"%string]
|}.

Definition rootless_world (fs : list (string * string))
  : @World rootless :=
  {| env := {| files := fs; replies := []; clock := 0%Z |} : @Env rootless;
     log := [] |}.

(** * Properties *)

(** ** Histories *)

Section HistoryFacts.

Context {L : Library}.

Lemma since_app (w w' : World) (evs : list Event) :
  log w' = log w ++ evs -> since w w' = evs.
Proof.
  intros H. unfold since. rewrite H. clear H.
  generalize (log w) as l.
  induction l as [|ev l IH]; simpl; auto.
Qed.

Lemma since_same (w : World) : since w w = [].
Proof. apply since_app. now rewrite app_nil_r. Qed.

Lemma count_app (p : Event -> bool) (l1 l2 : list Event) :
  count p (l1 ++ l2) = count p l1 + count p l2.
Proof. unfold count. now rewrite filter_app, length_app. Qed.

Lemma slept_app (l1 l2 : list Event) :
  slept (l1 ++ l2) = (slept l1 + slept l2)%Z.
Proof.
  induction l1 as [|ev l1 IH]; simpl; [reflexivity|].
  destruct ev; rewrite IH; lia.
Qed.

Lemma count_rounds (p : Event -> bool) (n : nat) (round : list Event) :
  count p (rounds n round) = n * count p round.
Proof.
  induction n as [|n IH]; simpl; [reflexivity|].
  now rewrite count_app, IH.
Qed.

Lemma slept_rounds (n : nat) (round : list Event) :
  slept (rounds n round) = (Z.of_nat n * slept round)%Z.
Proof.
  induction n as [|n IH]; [reflexivity|].
  cbn [rounds]. rewrite slept_app, IH. lia.
Qed.

Lemma last_cons {A} (a d : A) (l : list A) : last (a :: l) d = last l a.
Proof.
  revert a d. induction l as [|b l IH]; intros a d; [reflexivity|].
  change (last (a :: b :: l) d) with (last (b :: l) d).
  now rewrite !IH.
Qed.


End HistoryFacts.

(** ** The retry loop *)

Section RetryFacts.

Context {L : Library}.

Lemma perform_acts_as (ev : Event) (op : Env -> option error * Env) :
  acts_as (perform ev op) op.
Proof.
  intros w. unfold perform. now destruct (op (env w)).
Qed.

Lemma perform_run {A} (ev : Event) (f : Env -> A * Env) (w : World) :
  perform ev f w =
  (fst (f (env w)), {| env := snd (f (env w)); log := log w ++ [ev] |}).
Proof. unfold perform. now destruct (f (env w)). Qed.

(** One turn of the loop: a failed attempt is followed by the sleep and the
    remaining turns, a successful one ends the loop. *)
Lemma retry_loop_failed n m last0 w err w1 :
  m w = (Some err, w1) ->
  retry_loop (S n) m last0 w = retry_loop n m (Some err) (after_sleep w1).
Proof.
  intros H. cbn [retry_loop]. unfold bind. now rewrite H.
Qed.

Lemma retry_loop_succeeded n m last0 w w1 :
  m w = (None, w1) -> retry_loop (S n) m last0 w = (None, w1).
Proof.
  intros H. cbn [retry_loop]. unfold bind. now rewrite H.
Qed.

(** The value [retry_loop] returns, for any closure: success as soon as an
    attempt succeeds, and otherwise the message of the last failure behind
    the fixed prefix. *)
Lemma retry_loop_result n m op last0 w :
  acts_as m op ->
  fst (retry_loop n m last0 w) =
  match failures op n (env w) with
  | Some errs =>
      Some ("Retried 5 times: " ++ fmt_s (last (map Some errs) last0))%string
  | None => None
  end.
Proof.
  intros Hm. revert last0 w.
  induction n as [|n IH]; intros last0 w; [reflexivity|].
  destruct (Hm w) as [Hr He].
  destruct (m w) as [r w1] eqn:Hrun. simpl in Hr, He.
  cbn [failures].
  destruct (op (env w)) as [r' e']. simpl in Hr, He. subst r' e'.
  destruct r as [err|].
  - rewrite (retry_loop_failed _ _ _ _ _ _ Hrun), IH. cbn [after_sleep env].
    destruct (failures op n _) as [errs|]; [|reflexivity].
    cbn [option_map map]. now rewrite last_cons.
  - now rewrite (retry_loop_succeeded _ _ _ _ _ Hrun).
Qed.


(** The run in which attempt [k+1] is the first to succeed. *)
Lemma retry_loop_succeeds n k ev op last0 w :
  k < n ->
  fails_then_succeeds op k (env w) = true ->
  fst (retry_loop n (perform ev op) last0 w) = None /\
  log (snd (retry_loop n (perform ev op) last0 w)) =
  log w ++ rounds k [ev; EvSleep (1 * time_Second)%Z] ++ [ev].
Proof.
  revert k last0 w.
  induction n as [|n IH]; intros k last0 w Hk H; [lia|].
  pose proof (perform_run ev op w) as Hrun.
  destruct k as [|k]; cbn [fails_then_succeeds] in H.
  - destruct (op (env w)) as [[err|] e']; simpl in H; [discriminate|].
    cbn [fst snd] in Hrun.
    rewrite (retry_loop_succeeded _ _ _ _ _ Hrun). now split.
  - destruct (op (env w)) as [[err|] e']; [|discriminate].
    cbn [fst snd] in Hrun.
    rewrite (retry_loop_failed _ _ _ _ _ _ Hrun).
    destruct (IH k (Some err)
                (after_sleep {| env := e'; log := log w ++ [ev] |}))
      as [Hr Hl]; [lia | exact H |].
    split; [exact Hr|].
    rewrite Hl. cbn [after_sleep log rounds]. now rewrite <- !app_assoc.
Qed.

(** The history only grows, and the first thing a run with an attempt to go
    does is call the closure. *)
Lemma retry_loop_extends n ev op last0 w :
  exists evs,
    log (snd (retry_loop n (perform ev op) last0 w)) = log w ++ evs.
Proof.
  revert last0 w. induction n as [|n IH]; intros last0 w.
  - exists []. simpl. now rewrite app_nil_r.
  - pose proof (perform_run ev op w) as Hrun.
    destruct (op (env w)) as [[err|] e']; cbn [fst snd] in Hrun.
    + rewrite (retry_loop_failed _ _ _ _ _ _ Hrun).
      destruct (IH (Some err)
                  (after_sleep {| env := e'; log := log w ++ [ev] |}))
        as [evs Hl].
      exists (ev :: EvSleep (1 * time_Second)%Z :: evs).
      rewrite Hl. cbn [after_sleep log]. now rewrite <- !app_assoc.
    + rewrite (retry_loop_succeeded _ _ _ _ _ Hrun).
      now exists [ev].
Qed.

Lemma retry_loop_opens n ev op last0 w :
  exists rest,
    log (snd (retry_loop (S n) (perform ev op) last0 w)) =
    log w ++ ev :: rest.
Proof.
  pose proof (perform_run ev op w) as Hrun.
  destruct (op (env w)) as [[err|] e']; cbn [fst snd] in Hrun.
  - rewrite (retry_loop_failed _ _ _ _ _ _ Hrun).
    destruct (retry_loop_extends n ev op (Some err)
                (after_sleep {| env := e'; log := log w ++ [ev] |}))
      as [evs Hl].
    exists (EvSleep (1 * time_Second)%Z :: evs).
    rewrite Hl. cbn [after_sleep log]. now rewrite <- !app_assoc.
  - rewrite (retry_loop_succeeded _ _ _ _ _ Hrun). now exists [].
Qed.



End RetryFacts.

(** ** The Retry Executor *)

Section RetryExecutor.

Context {L : Library}.
Variable i : Registry.


Lemma retry_success_run op k w :
  k < 5 ->
  fails_then_succeeds op k (env w) = true ->
  fst (retry i (counted op) w) = None /\
  since w (snd (retry i (counted op) w)) =
    rounds k [EvDoFunc; EvSleep (1 * time_Second)%Z] ++ [EvDoFunc].
Proof.
  intros Hk H. unfold retry, counted.
  destruct (retry_loop_succeeds 5 k EvDoFunc op None w Hk H) as [Hr Hl].
  split; [exact Hr|]. now apply since_app.
Qed.



(** C3: an operation that fails exactly [k < 5] times and then succeeds
    makes [retry] return success; it has then been invoked exactly [k + 1]
    times and at least [k] seconds have been spent sleeping. *)
Theorem retry_succeeds_after_failures op k w :
  k < 5 ->
  fails_then_succeeds op k (env w) = true ->
  let run := retry i (counted op) w in
  fst run = None /\
  count is_doFunc (since w (snd run)) = k + 1 /\
  (Z.of_nat k * time_Second <= slept (since w (snd run)))%Z.
Proof.
  intros Hk H run. subst run.
  destruct (retry_success_run op k w Hk H) as [Hr Hl].
  rewrite Hl, count_app, slept_app, count_rounds, slept_rounds.
  split; [exact Hr|].
  change (count is_doFunc [EvDoFunc; EvSleep (1 * time_Second)%Z]) with 1.
  change (count is_doFunc [EvDoFunc]) with 1.
  change (slept [EvDoFunc; EvSleep (1 * time_Second)%Z])
    with (1 * time_Second + 0)%Z.
  change (slept [EvDoFunc]) with 0%Z.
  split; lia.
Qed.


End RetryExecutor.



Lemma retry_succeeds_after_failures_witness :
  2 < 5 /\
  fails_then_succeeds (L := sample) next_reply 2 (env (world [] (down 2)))
    = true /\
  let run := retry (client false) (counted (L := sample) next_reply)
                   (world [] (down 2)) in
  fst run = None /\
  count is_doFunc (since (world [] (down 2)) (snd run)) = 2 + 1 /\
  (Z.of_nat 2 * time_Second <= slept (since (world [] (down 2)) (snd run)))%Z.
Proof.
  split; [lia|]. split; [reflexivity|].
  apply (retry_succeeds_after_failures (L := sample) (client false)
           next_reply 2 (world [] (down 2))); [lia | reflexivity].
Defined.


(** ** The certificate pool and the transport *)

Section TransportFacts.

Context {L : Library}.

Lemma load_CACertPaths_first_failure pre p post pool pool1 w :
  pool_after pre pool (env w) = Some pool1 ->
  (match ReadFile p (env w) with
   | inr _ => true
   | inl certs => negb (snd (AppendCertsFromPEM pool1 certs))
   end) = true ->
  load_CACertPaths (pre ++ p :: post) pool w =
  (inr (match ReadFile p (env w) with
        | inr cause => ReadError p cause
        | inl _ => ParseError p
        end),
   {| env := env w; log := log w ++ map EvReadFile (pre ++ [p]) |}).
Proof.
  revert pool w.
  induction pre as [|q pre IH]; intros pool w Hpre Hp.
  - simpl in Hpre. injection Hpre as ->.
    cbn [app load_CACertPaths map]. unfold bind, os_ReadFile, observe, record.
    destruct (ReadFile p (env w)) as [certs|cause]; [|reflexivity].
    destruct (AppendCertsFromPEM pool1 certs) as [pool' ok].
    simpl in Hp. now rewrite Hp.
  - cbn [app load_CACertPaths map pool_after] in *.
    unfold bind, os_ReadFile, observe, record.
    destruct (ReadFile q (env w)) as [certs|cause]; [|discriminate].
    destruct (AppendCertsFromPEM pool certs) as [pool' ok].
    destruct ok; [|discriminate]. cbn [negb].
    rewrite (IH pool' {| env := env w; log := log w ++ [EvReadFile q] |})
      by assumption.
    cbn [env log]. now rewrite <- app_assoc.
Qed.

Lemma load_CACertPaths_fails paths pool w :
  pool_after paths pool (env w) = None ->
  exists q, In q paths /\
    (fst (load_CACertPaths paths pool w) = inr (ParseError q) \/
     exists c, fst (load_CACertPaths paths pool w) = inr (ReadError q c)).
Proof.
  revert pool w.
  induction paths as [|q paths IH]; intros pool w H; [discriminate|].
  cbn [load_CACertPaths pool_after] in *.
  unfold bind, os_ReadFile, observe, record.
  destruct (ReadFile q (env w)) as [certs|cause].
  - destruct (AppendCertsFromPEM pool certs) as [pool' ok].
    destruct ok; cbn [negb].
    + destruct (IH pool' {| env := env w; log := log w ++ [EvReadFile q] |} H)
        as (q' & Hin & Hq').
      exists q'. split; [now right | exact Hq'].
    + exists q. split; [now left | now left].
  - exists q. split; [now left | right; now exists cause].
Qed.

Lemma pool_after_unreadable paths pool e p cause :
  In p paths -> ReadFile p e = inr cause -> pool_after paths pool e = None.
Proof.
  revert pool. induction paths as [|q paths IH]; intros pool Hin Hp.
  - destruct Hin.
  - cbn [pool_after]. destruct Hin as [-> | Hin].
    + now rewrite Hp.
    + destruct (ReadFile q e) as [certs|]; [|reflexivity].
      destruct (AppendCertsFromPEM pool certs) as [pool' [|]]; eauto.
Qed.

(** [newHTTPTransport] up to the end of its loop. *)
Lemma newHTTPTransport_loads o w :
  newHTTPTransport o w =
  (let (r, w') := load_CACertPaths (CACertPaths o) (initial_pool (env w))
                    (record EvSystemCertPool w) in
   match r with
   | inr err => (inr err, w')
   | inl pool =>
       (inl {| Proxy := ProxyFromEnvironment;
               DialContext := {| Timeout := (30 * time_Second)%Z;
                                 KeepAlive := (30 * time_Second)%Z;
                                 DualStack := true |};
               MaxIdleConns := 100%Z;
               IdleConnTimeout := (90 * time_Second)%Z;
               TLSHandshakeTimeout := (10 * time_Second)%Z;
               ResponseHeaderTimeout := (10 * time_Second)%Z;
               ExpectContinueTimeout := (1 * time_Second)%Z;
               TLSClientConfig :=
                 {| RootCAs := pool;
                    InsecureSkipVerify := Bool.eqb (VerifyCerts o) false |}
            |}, w')
   end).
Proof.
  unfold newHTTPTransport, bind, x509_SystemCertPool, observe, initial_pool.
  destruct (CACertPaths o) as [|p paths]; cbn [length Nat.ltb Nat.leb];
    [cbn [load_CACertPaths]; unfold ret; reflexivity|].
  destruct (load_CACertPaths _ _ _) as [[pool|err] w']; reflexivity.
Qed.

Lemma newHTTPTransport_flag o w t w' :
  newHTTPTransport o w = (inl t, w') ->
  InsecureSkipVerify (TLSClientConfig t) = Bool.eqb (VerifyCerts o) false.
Proof.
  rewrite newHTTPTransport_loads.
  destruct (load_CACertPaths _ _ _) as [[pool|err] w1]; [|discriminate].
  now intros [= <- _].
Qed.

Lemma ParseError_not_ReadError p q cause : ParseError p <> ReadError q cause.
Proof. unfold ParseError, ReadError. simpl. discriminate. Qed.

(** C1, as the code has it: whenever a transport is built, it skips the
    verification of server certificates exactly when the flag [VerifyCerts]
    of the configuration is false.  The flag is a plain boolean whose zero
    value is false: for a configuration that leaves it out the transport is
    built and skips verification. *)
Theorem transport_skips_verification_iff_flag_false :
  (forall o w t w',
      newHTTPTransport o w = (inl t, w') ->
      (InsecureSkipVerify (TLSClientConfig t) = true <->
       VerifyCerts o = false)) /\
  (forall w, exists t,
      fst (newHTTPTransport Opts_zero w) = inl t /\
      InsecureSkipVerify (TLSClientConfig t) = true).
Proof.
  split.
  - intros o w t w' H. rewrite (newHTTPTransport_flag o w t w' H).
    destruct (VerifyCerts o); simpl; split; congruence.
  - intros w. rewrite newHTTPTransport_loads.
    cbn [Opts_zero CACertPaths load_CACertPaths]. unfold ret.
    eexists. split; reflexivity.
Qed.

(** C4: when the CA files before [p] all load and [p] is the first that does
    not, [newHTTPTransport] fails with the error of [p] alone: the read
    error, with the path and the cause, when [p] cannot be read, and the
    other error, with the path, when [p] holds no certificate.  The two
    errors are never the same, and no file after [p] is read. *)
Theorem certificate_pool_first_error o w pre p post pool1 :
  CACertPaths o = pre ++ p :: post ->
  pool_after pre (initial_pool (env w)) (env w) = Some pool1 ->
  (forall cause,
      ReadFile p (env w) = inr cause ->
      fst (newHTTPTransport o w) =
        inr ("Reading CA certificates from '" ++ p ++ "': " ++ cause)%string
      /\ since w (snd (newHTTPTransport o w)) =
           EvSystemCertPool :: map EvReadFile (pre ++ [p])) /\
  (forall certs,
      ReadFile p (env w) = inl certs ->
      snd (AppendCertsFromPEM pool1 certs) = false ->
      fst (newHTTPTransport o w) =
        inr ("Adding CA certificates from '" ++ p ++ "': failed")%string
      /\ since w (snd (newHTTPTransport o w)) =
           EvSystemCertPool :: map EvReadFile (pre ++ [p])) /\
  (forall q cause,
      ("Adding CA certificates from '" ++ p ++ "': failed")%string <>
      ("Reading CA certificates from '" ++ q ++ "': " ++ cause)%string).
Proof.
  intros Hpaths Hpre.
  assert (Hrun : forall r,
             ReadFile p (env w) = r ->
             (match r with
              | inr _ => true
              | inl certs => negb (snd (AppendCertsFromPEM pool1 certs))
              end) = true ->
             newHTTPTransport o w =
             (inr (match r with
                   | inr cause => ReadError p cause
                   | inl _ => ParseError p
                   end),
              {| env := env w;
                 log := (log w ++ [EvSystemCertPool])
                          ++ map EvReadFile (pre ++ [p]) |})).
  { intros r Hr Hbad. subst r.
    rewrite newHTTPTransport_loads, Hpaths.
    now rewrite (load_CACertPaths_first_failure pre p post _ pool1
                   (record EvSystemCertPool w) Hpre Hbad). }
  split; [|split].
  - intros cause Hr. rewrite (Hrun _ Hr eq_refl). split; [reflexivity|].
    apply since_app. cbn [snd log]. now rewrite <- app_assoc.
  - intros certs Hr Hok.
    assert (Hbad : negb (snd (AppendCertsFromPEM pool1 certs)) = true)
      by now rewrite Hok.
    rewrite (Hrun _ Hr Hbad). split; [reflexivity|].
    apply since_app. cbn [snd log]. now rewrite <- app_assoc.
  - intros q cause. apply ParseError_not_ReadError.
Qed.

(** Where the files do not all load there is a first one that does not. *)
Lemma first_failure paths pool e :
  pool_after paths pool e = None ->
  exists pre q post pool1,
    paths = pre ++ q :: post /\
    pool_after pre pool e = Some pool1 /\
    fails_to_load q pool1 e = true.
Proof.
  revert pool. induction paths as [|p paths IH]; intros pool H;
    [discriminate|].
  cbn [pool_after] in H.
  destruct (ReadFile p e) as [certs|cause] eqn:Hread.
  - destruct (AppendCertsFromPEM pool certs) as [pool' ok] eqn:Happ.
    destruct ok.
    + destruct (IH pool' H) as (pre & q & post & pool1 & -> & Hpre & Hq).
      exists (p :: pre), q, post, pool1. split; [reflexivity|].
      split; [|exact Hq]. cbn [pool_after]. now rewrite Hread, Happ.
    + exists [], p, paths, pool. split; [reflexivity|].
      split; [reflexivity|]. unfold fails_to_load.
      now rewrite Hread, Happ.
  - exists [], p, paths, pool. split; [reflexivity|].
    split; [reflexivity|]. unfold fails_to_load. now rewrite Hread.
Qed.

(** C5, as the code has it: a configuration with a CA path that cannot be
    read never gets a client.  Its CA paths split into the ones that load, a
    first one [q] that does not, and the rest, and construction fails with
    the error of [q]: the read error of [q] when [q] cannot be read, the
    other error when [q] holds no certificate.  So the error is the read
    error naming [p] itself when every path before [p] loads. *)
Theorem NewRegistry_unreadable_CA_path o w p cause :
  In p (CACertPaths o) ->
  ReadFile p (env w) = inr cause ->
  (exists pre q post pool1,
      CACertPaths o = pre ++ q :: post /\
      pool_after pre (initial_pool (env w)) (env w) = Some pool1 /\
      fails_to_load q pool1 (env w) = true /\
      fst (NewRegistry o w) =
        inr (match ReadFile q (env w) with
             | inr c =>
                 ("Reading CA certificates from '" ++ q ++ "': " ++ c)%string
             | inl _ =>
                 ("Adding CA certificates from '" ++ q ++ "': failed")%string
             end)) /\
  (forall pre post pool1,
      CACertPaths o = pre ++ p :: post ->
      pool_after pre (initial_pool (env w)) (env w) = Some pool1 ->
      fst (NewRegistry o w) =
        inr ("Reading CA certificates from '" ++ p ++ "': " ++ cause)%string).
Proof.
  intros Hin Hp.
  assert (Hnew : forall err,
             fst (newHTTPTransport o w) = inr err ->
             fst (NewRegistry o w) = inr err).
  { intros err H. unfold NewRegistry, bind.
    destruct (newHTTPTransport o w) as [[t|err'] w1]; simpl in H;
      [discriminate|]. now injection H as ->. }
  assert (Hfirst : forall pre q post pool1,
             CACertPaths o = pre ++ q :: post ->
             pool_after pre (initial_pool (env w)) (env w) = Some pool1 ->
             fails_to_load q pool1 (env w) = true ->
             fst (NewRegistry o w) = inr (load_error q (env w))).
  { intros pre q post pool1 Hpaths Hpre Hq. apply Hnew.
    rewrite newHTTPTransport_loads, Hpaths.
    now rewrite (load_CACertPaths_first_failure pre q post _ pool1
                   (record EvSystemCertPool w) Hpre Hq). }
  split.
  - pose proof (pool_after_unreadable _ (initial_pool (env w)) _ _ _ Hin Hp)
      as Hnone.
    destruct (first_failure _ _ _ Hnone)
      as (pre & q & post & pool1 & Hpaths & Hpre & Hq).
    exists pre, q, post, pool1. repeat split; try assumption.
    exact (Hfirst pre q post pool1 Hpaths Hpre Hq).
  - intros pre post pool1 Hpaths Hpre.
    assert (Hq : fails_to_load p pool1 (env w) = true)
      by (unfold fails_to_load; now rewrite Hp).
    rewrite (Hfirst pre p post pool1 Hpaths Hpre Hq).
    unfold load_error. now rewrite Hp.
Qed.

End TransportFacts.

Lemma transport_skips_verification_witness :
  let o := {| CACertPaths := ["ca.pem"%string]; VerifyCerts := true;
              Insecure := false; EnvAuthPrefix := ""%string |} in
  let w := world [("ca.pem", pem)%string] [] in
  exists t w',
    newHTTPTransport (L := sample) o w = (inl t, w') /\
    (InsecureSkipVerify (TLSClientConfig t) = true <->
     VerifyCerts o = false).
Proof.
  cbv zeta. eexists. eexists. split; [vm_compute; reflexivity|].
  eapply (proj1 (transport_skips_verification_iff_flag_false (L := sample))
                _ (world [("ca.pem", pem)%string] [])).
  vm_compute; reflexivity.
Defined.

(** C1 promises verification for a configuration that leaves the flag out;
    the transport built for [Opts{}] does not verify. *)
Lemma default_flag_skips_verification_counterexample :
  exists t,
    fst (newHTTPTransport (L := sample) Opts_zero (world [] [])) = inl t /\
    VerifyCerts Opts_zero = false /\
    InsecureSkipVerify (TLSClientConfig t) <> false.
Proof.
  eexists. split; [reflexivity|]. split; [reflexivity|].
  simpl. discriminate.
Qed.

Lemma certificate_pool_first_error_witness :
  let o := {| CACertPaths := ["a.pem"; "b.pem"; "c.pem"]%string;
              VerifyCerts := true; Insecure := false;
              EnvAuthPrefix := ""%string |} in
  let missing := world [("a.pem", pem)%string] [] in
  let garbled := world [("a.pem", pem); ("b.pem", "no PEM block")]%string []
  in
  (fst (newHTTPTransport (L := sample) o missing) =
     inr ("Reading CA certificates from 'b.pem': "
            ++ "open b.pem: no such file or directory")%string /\
   since missing (snd (newHTTPTransport (L := sample) o missing)) =
     [EvSystemCertPool; EvReadFile "a.pem"; EvReadFile "b.pem"]%string) /\
  (fst (newHTTPTransport (L := sample) o garbled) =
     inr "Adding CA certificates from 'b.pem': failed"%string /\
   since garbled (snd (newHTTPTransport (L := sample) o garbled)) =
     [EvSystemCertPool; EvReadFile "a.pem"; EvReadFile "b.pem"]%string).
Proof.
  cbv zeta. split.
  - apply (proj1 (certificate_pool_first_error (L := sample)
             {| CACertPaths := ["a.pem"; "b.pem"; "c.pem"]%string;
                VerifyCerts := true; Insecure := false;
                EnvAuthPrefix := ""%string |}
             (world [("a.pem", pem)%string] [])
             ["a.pem"%string] "b.pem"%string ["c.pem"%string]
             ["system roots"; pem]%string eq_refl eq_refl)).
    reflexivity.
  - apply (proj1 (proj2 (certificate_pool_first_error (L := sample)
             {| CACertPaths := ["a.pem"; "b.pem"; "c.pem"]%string;
                VerifyCerts := true; Insecure := false;
                EnvAuthPrefix := ""%string |}
             (world [("a.pem", pem); ("b.pem", "no PEM block")]%string [])
             ["a.pem"%string] "b.pem"%string ["c.pem"%string]
             ["system roots"; pem]%string eq_refl eq_refl))
             "no PEM block"%string);
      reflexivity.
Defined.

Lemma NewRegistry_unreadable_CA_path_witness :
  let o := {| CACertPaths := ["a.pem"; "b.pem"]%string;
              VerifyCerts := true; Insecure := false;
              EnvAuthPrefix := ""%string |} in
  let w := world [("a.pem", pem)%string] [] in
  In "b.pem"%string (CACertPaths o) /\
  ReadFile (Library := sample) "b.pem" (env w) =
    inr "open b.pem: no such file or directory"%string /\
  fst (NewRegistry (L := sample) o w) =
    inr ("Reading CA certificates from 'b.pem': "
           ++ "open b.pem: no such file or directory")%string.
Proof.
  cbv zeta. split; [simpl; auto|]. split; [reflexivity|].
  apply (proj2 (NewRegistry_unreadable_CA_path (L := sample)
           {| CACertPaths := ["a.pem"; "b.pem"]%string;
              VerifyCerts := true; Insecure := false;
              EnvAuthPrefix := ""%string |}
           (world [("a.pem", pem)%string] [])
           "b.pem"%string "open b.pem: no such file or directory"%string
           ltac:(simpl; auto) eq_refl)
           ["a.pem"%string] [] ["system roots"; pem]%string);
    reflexivity.
Defined.

(** C5 has the error name the missing path whatever else the configuration
    lists.  Here [b.pem] is missing, but [a.pem], listed first, holds no
    certificate: construction fails on [a.pem] and the error says nothing of
    [b.pem]. *)
Lemma NewRegistry_names_missing_path_counterexample :
  let o := {| CACertPaths := ["a.pem"; "b.pem"]%string;
              VerifyCerts := true; Insecure := false;
              EnvAuthPrefix := ""%string |} in
  let w := world [("a.pem", "no PEM block")%string] [] in
  In "b.pem"%string (CACertPaths o) /\
  ReadFile (Library := sample) "b.pem" (env w) =
    inr "open b.pem: no such file or directory"%string /\
  fst (NewRegistry (L := sample) o w) =
    inr "Adding CA certificates from 'a.pem': failed"%string /\
  mentions "Adding CA certificates from 'a.pem': failed" "b.pem" = false.
Proof.
  cbv zeta. split; [simpl; auto|]. repeat split.
Qed.

(** ** The client operations *)

Section FacadeFacts.

Context {L : Library}.
Variable i : Registry.

Lemma WriteTag_doFunc_acts_as dst src :
  acts_as (WriteTag_doFunc i dst src) (WriteTag_op i dst src).
Proof.
  intros w. unfold WriteTag_doFunc, WriteTag_op, bind, regremote_Get.
  rewrite perform_run.
  destruct (remote_Get _ _ (env w)) as [[desc|err] e1]; cbn [fst snd].
  - unfold regremote_Tag. rewrite perform_run. cbn [env fst snd].
    now destruct (remote_Tag _ _ _ e1).
  - now split.
Qed.

(** One call of the closure of [WriteTag]: the tagging is reached only
    through a successful read. *)
Lemma WriteTag_doFunc_run dst src w :
  WriteTag_doFunc i dst src w =
  match remote_Get (Digest_Reference src) (opts i) (env w) with
  | (inr err, e1) =>
      (Some err,
       {| env := e1; log := log w ++ [EvGet (Digest_Reference src)] |})
  | (inl desc, e1) =>
      (fst (remote_Tag dst desc (opts i) e1),
       {| env := snd (remote_Tag dst desc (opts i) e1);
          log := log w ++ [EvGet (Digest_Reference src); EvTag dst desc] |})
  end.
Proof.
  unfold WriteTag_doFunc, bind, regremote_Get. rewrite perform_run.
  destruct (remote_Get _ _ (env w)) as [[desc|err] e1]; cbn [fst snd].
  - unfold regremote_Tag. rewrite perform_run. cbn [env log].
    now rewrite <- app_assoc.
  - reflexivity.
Qed.

Lemma WriteTag_loop_history dst src n last0 w :
  exists evs,
    log (snd (retry_loop n (WriteTag_doFunc i dst src) last0 w)) =
      log w ++ evs /\
    WriteTag_history i dst src n (env w) last0 evs
      (fst (retry_loop n (WriteTag_doFunc i dst src) last0 w)).
Proof.
  revert last0 w. induction n as [|n IH]; intros last0 w.
  - exists []. split; [simpl; now rewrite app_nil_r | constructor].
  - pose proof (WriteTag_doFunc_run dst src w) as Hrun.
    destruct (remote_Get _ _ (env w)) as [[desc|err] e1] eqn:Hget.
    + destruct (remote_Tag dst desc (opts i) e1) as [[err|] e2] eqn:Htag;
        cbn [fst snd] in Hrun.
      * rewrite (retry_loop_failed _ _ _ _ _ _ Hrun).
        destruct (IH (Some err)
                    (after_sleep
                       {| env := e2;
                          log := log w ++ [EvGet (Digest_Reference src);
                                           EvTag dst desc] |}))
          as (evs & Hlog & Hevs).
        exists (EvGet (Digest_Reference src) :: EvTag dst desc
                  :: EvSleep (1 * time_Second)%Z :: evs).
        split; [|exact (wth_tag_failed _ _ _ _ _ _ _ _ _ _ _ _
                          Hget Htag Hevs)].
        rewrite Hlog. cbn [after_sleep log]. now rewrite <- !app_assoc.
      * rewrite (retry_loop_succeeded _ _ _ _ _ Hrun).
        exists [EvGet (Digest_Reference src); EvTag dst desc].
        split; [reflexivity|].
        exact (wth_tagged _ _ _ _ _ _ _ _ _ Hget Htag).
    + rewrite (retry_loop_failed _ _ _ _ _ _ Hrun).
      destruct (IH (Some err)
                  (after_sleep
                     {| env := e1;
                        log := log w ++ [EvGet (Digest_Reference src)] |}))
        as (evs & Hlog & Hevs).
      exists (EvGet (Digest_Reference src)
                :: EvSleep (1 * time_Second)%Z :: evs).
      split; [|exact (wth_read_failed _ _ _ _ _ _ _ _ _ _ Hget Hevs)].
      rewrite Hlog. cbn [after_sleep log]. now rewrite <- !app_assoc.
Qed.


(** A retried write, once its reference is parsed. *)
Lemma retried_write_result label m op w :
  acts_as m op ->
  fst (bind (retry i m)
         (fun err =>
            match err with
            | Some _ => ret (Some (label ++ fmt_s err)%string)
            | None => ret None
            end) w) = wrapped label op (env w).
Proof.
  intros Hm. unfold bind, wrapped.
  pose proof (retry_loop_result 5 m op None w Hm) as Hr.
  unfold retry. destruct (retry_loop 5 m None w) as [r w1].
  cbn [fst] in Hr. subst r.
  destruct (failures op 5 (env w)) as [errs|]; reflexivity.
Qed.

Lemma length_append (s1 s2 : string) :
  String.length (s1 ++ s2) = String.length s1 + String.length s2.
Proof. induction s1 as [|c s1 IH]; simpl; congruence. Qed.

Lemma not_own_extension (label s : string) :
  label <> ""%string -> s <> (label ++ s)%string.
Proof.
  intros Hl H. apply (f_equal String.length) in H.
  rewrite length_append in H.
  destruct label; [congruence | simpl in H; lia].
Qed.

End FacadeFacts.

Section Facade.

Context {L : Library}.

Lemma NewRegistry_refOpts o w0 i w1 :
  NewRegistry o w0 = (inl i, w1) ->
  refOpts i = if Insecure o then [name_Insecure] else [].
Proof.
  unfold NewRegistry, bind.
  destruct (newHTTPTransport o w0) as [[t|err] w']; [|discriminate].
  unfold ret. intros [= <- _]. now destruct (Insecure o).
Qed.

Lemma labelled_world (i : Registry) label m w :
  snd (bind (retry i m)
         (fun err =>
            match err with
            | Some _ => ret (Some (label ++ fmt_s err)%string)
            | None => ret None
            end) w) = snd (retry i m w).
Proof.
  unfold bind. destruct (retry i m w) as [[err|] w1]; reflexivity.
Qed.



(** C7, as the code has it: once the reference is parsed, a read operation
    makes one call to the registry and hands back its answer, error
    included, as it is; a write or tag operation returns no error when an
    attempt succeeds and otherwise the last of its five failures behind its
    own label.  An error of the parser is returned as it is by every
    operation: by the reads, and by the writes too, where it does not carry
    the label of the operation. *)
Theorem operation_errors i w :
  (forall ref ref',
      ParseReference (Reference_String ref) (refOpts i) = inl ref' ->
      Generic i ref w =
      (match fst (remote_Get ref' (opts i) (env w)) with
       | inl desc => inl (Descriptor_Descriptor desc)
       | inr err => inr err
       end,
       {| env := snd (remote_Get ref' (opts i) (env w));
          log := log w ++ [EvGet ref'] |})) /\
  (forall ref ref',
      ParseReference (Reference_String ref) (refOpts i) = inl ref' ->
      Image i ref w =
      (fst (remote_Image ref' (opts i) (env w)),
       {| env := snd (remote_Image ref' (opts i) (env w));
          log := log w ++ [EvImage ref'] |})) /\
  (forall ref ref',
      ParseReference (Reference_String ref) (refOpts i) = inl ref' ->
      Index i ref w =
      (fst (remote_Index ref' (opts i) (env w)),
       {| env := snd (remote_Index ref' (opts i) (env w));
          log := log w ++ [EvIndex ref'] |})) /\
  (forall repo repo',
      NewRepository (Repository_Name repo) (refOpts i) = inl repo' ->
      ListTags i repo w =
      (fst (remote_List repo' (opts i) (env w)),
       {| env := snd (remote_List repo' (opts i) (env w));
          log := log w ++ [EvList repo'] |})) /\
  (forall ref ref' img,
      ParseReference (Reference_String ref) (refOpts i) = inl ref' ->
      fst (WriteImage i ref img w) =
      wrapped "Writing image: " (Write_op i ref' img) (env w)) /\
  (forall ref ref' idx,
      ParseReference (Reference_String ref) (refOpts i) = inl ref' ->
      fst (WriteIndex i ref idx w) =
      wrapped "Writing image index: " (WriteIndex_op i ref' idx) (env w)) /\
  (forall dst dst' src src',
      NewTag (Tag_String dst) (refOpts i) = inl dst' ->
      NewDigest (Digest_String src) (refOpts i) = inl src' ->
      fst (WriteTag i dst src w) =
      wrapped "Writing image tag: " (WriteTag_op i dst' src') (env w)) /\
  (forall ref err,
      ParseReference (Reference_String ref) (refOpts i) = inr err ->
      Generic i ref w = (inr err, w) /\
      Image i ref w = (inr err, w) /\
      Index i ref w = (inr err, w)) /\
  (forall repo err,
      NewRepository (Repository_Name repo) (refOpts i) = inr err ->
      ListTags i repo w = (inr err, w)) /\
  (forall ref img err,
      ParseReference (Reference_String ref) (refOpts i) = inr err ->
      WriteImage i ref img w = (Some err, w) /\
      err <> ("Writing image: " ++ err)%string) /\
  (forall ref idx err,
      ParseReference (Reference_String ref) (refOpts i) = inr err ->
      WriteIndex i ref idx w = (Some err, w) /\
      err <> ("Writing image index: " ++ err)%string) /\
  (forall dst src err,
      (NewTag (Tag_String dst) (refOpts i) = inr err \/
       exists dst',
         NewTag (Tag_String dst) (refOpts i) = inl dst' /\
         NewDigest (Digest_String src) (refOpts i) = inr err) ->
      WriteTag i dst src w = (Some err, w) /\
      err <> ("Writing image tag: " ++ err)%string).
Proof.
  repeat apply conj.
  - intros ref ref' H. unfold Generic, bind, regremote_Get.
    rewrite H, perform_run.
    now destruct (fst (remote_Get ref' (opts i) (env w))).
  - intros ref ref' H. unfold Image, regremote_Image.
    now rewrite H, perform_run.
  - intros ref ref' H. unfold Index, regremote_Index.
    now rewrite H, perform_run.
  - intros repo repo' H. unfold ListTags, regremote_List.
    now rewrite H, perform_run.
  - intros ref ref' img H. unfold WriteImage. rewrite H.
    apply retried_write_result, perform_acts_as.
  - intros ref ref' idx H. unfold WriteIndex. rewrite H.
    apply retried_write_result, perform_acts_as.
  - intros dst dst' src src' Hdst Hsrc. unfold WriteTag.
    rewrite Hdst, Hsrc.
    apply retried_write_result, WriteTag_doFunc_acts_as.
  - intros ref err H. unfold Generic, Image, Index. now rewrite H.
  - intros repo err H. unfold ListTags. now rewrite H.
  - intros ref img err H. unfold WriteImage. rewrite H.
    split; [reflexivity | now apply not_own_extension].
  - intros ref idx err H. unfold WriteIndex. rewrite H.
    split; [reflexivity | now apply not_own_extension].
  - intros dst src err H. unfold WriteTag.
    split; [|now apply not_own_extension].
    destruct H as [H | (dst' & Hdst & H)]; [now rewrite H|].
    now rewrite Hdst, H.
Qed.

(** C8, as the code has it: a client built by [NewRegistry] hands its
    reference arguments to the parser, with [regname.Insecure] when the
    configuration sets [Insecure] and with no option otherwise.  Whenever
    the parser turns a reference down, the operation returns the parser's
    error and the world is as it was: no call has gone to the registry.
    The package turns nothing down itself: whenever the parser takes the
    reference, the operation goes on to the registry, and its first call is
    the one for the parsed reference. *)
Theorem reference_rejected_before_network o w0 i w1 :
  NewRegistry o w0 = (inl i, w1) ->
  let policy := if Insecure o then [name_Insecure] else [] in
  (forall err w,
    (forall ref,
        ParseReference (Reference_String ref) policy = inr err ->
        Generic i ref w = (inr err, w)) /\
    (forall ref,
        ParseReference (Reference_String ref) policy = inr err ->
        Image i ref w = (inr err, w)) /\
    (forall ref img,
        ParseReference (Reference_String ref) policy = inr err ->
        WriteImage i ref img w = (Some err, w)) /\
    (forall ref,
        ParseReference (Reference_String ref) policy = inr err ->
        Index i ref w = (inr err, w)) /\
    (forall ref idx,
        ParseReference (Reference_String ref) policy = inr err ->
        WriteIndex i ref idx w = (Some err, w)) /\
    (forall dst src,
        NewTag (Tag_String dst) policy = inr err ->
        WriteTag i dst src w = (Some err, w)) /\
    (forall dst dst' src,
        NewTag (Tag_String dst) policy = inl dst' ->
        NewDigest (Digest_String src) policy = inr err ->
        WriteTag i dst src w = (Some err, w)) /\
    (forall repo,
        NewRepository (Repository_Name repo) policy = inr err ->
        ListTags i repo w = (inr err, w))) /\
  (forall w,
    (forall ref ref',
        ParseReference (Reference_String ref) policy = inl ref' ->
        since w (snd (Generic i ref w)) = [EvGet ref']) /\
    (forall ref ref',
        ParseReference (Reference_String ref) policy = inl ref' ->
        since w (snd (Image i ref w)) = [EvImage ref']) /\
    (forall ref ref' img,
        ParseReference (Reference_String ref) policy = inl ref' ->
        exists rest,
          since w (snd (WriteImage i ref img w)) = EvWrite ref' img :: rest)
    /\
    (forall ref ref',
        ParseReference (Reference_String ref) policy = inl ref' ->
        since w (snd (Index i ref w)) = [EvIndex ref']) /\
    (forall ref ref' idx,
        ParseReference (Reference_String ref) policy = inl ref' ->
        exists rest,
          since w (snd (WriteIndex i ref idx w)) =
          EvWriteIndex ref' idx :: rest) /\
    (forall dst dst' src src',
        NewTag (Tag_String dst) policy = inl dst' ->
        NewDigest (Digest_String src) policy = inl src' ->
        exists rest,
          since w (snd (WriteTag i dst src w)) =
          EvGet (Digest_Reference src') :: rest) /\
    (forall repo repo',
        NewRepository (Repository_Name repo) policy = inl repo' ->
        since w (snd (ListTags i repo w)) = [EvList repo'])).
Proof.
  intros Hnew policy. subst policy.
  rewrite <- (NewRegistry_refOpts o w0 i w1 Hnew).
  split.
  - intros err w.
    repeat split; intros;
      unfold Generic, Image, WriteImage, Index, WriteIndex, WriteTag,
        ListTags;
      repeat match goal with H : _ = _ |- _ => rewrite H; clear H end;
      reflexivity.
  - intros w. repeat apply conj.
    + intros ref ref' H. unfold Generic, bind, regremote_Get.
      rewrite H, perform_run. apply since_app.
      now destruct (fst (remote_Get ref' (opts i) (env w))).
    + intros ref ref' H. unfold Image, regremote_Image.
      rewrite H, perform_run. now apply since_app.
    + intros ref ref' img H. unfold WriteImage. rewrite H, labelled_world.
      destruct (retry_loop_opens 4 (EvWrite ref' img)
                  (remote_Write ref' img (opts i)) None w) as [rest Hl].
      exists rest. now apply since_app.
    + intros ref ref' H. unfold Index, regremote_Index.
      rewrite H, perform_run. now apply since_app.
    + intros ref ref' idx H. unfold WriteIndex. rewrite H, labelled_world.
      destruct (retry_loop_opens 4 (EvWriteIndex ref' idx)
                  (remote_WriteIndex ref' idx (opts i)) None w)
        as [rest Hl].
      exists rest. now apply since_app.
    + intros dst dst' src src' Hdst Hsrc. unfold WriteTag.
      rewrite Hdst, Hsrc, labelled_world.
      destruct (WriteTag_loop_history i dst' src' 5 None w)
        as (evs & Hlog & Hevs).
      unfold retry. rewrite (since_app _ _ _ Hlog).
      inversion Hevs; subst; eexists; reflexivity.
    + intros repo repo' H. unfold ListTags, regremote_List.
      rewrite H, perform_run. now apply since_app.
Qed.

(** C9: when the parser rejects a reference of [WriteImage], [WriteIndex]
    or [WriteTag], the error comes back as the parser gave it, not behind
    the label of the operation, and the world is untouched: [retry] has not
    run, nothing was written and nothing slept. *)
Theorem write_reference_error_unwrapped i err w :
  (forall ref img,
      ParseReference (Reference_String ref) (refOpts i) = inr err ->
      let run := WriteImage i ref img w in
      fst run = Some err /\
      fst run <> Some ("Writing image: " ++ err)%string /\
      snd run = w /\
      count is_write (since w (snd run)) = 0 /\
      count is_sleep (since w (snd run)) = 0) /\
  (forall ref idx,
      ParseReference (Reference_String ref) (refOpts i) = inr err ->
      let run := WriteIndex i ref idx w in
      fst run = Some err /\
      fst run <> Some ("Writing image index: " ++ err)%string /\
      snd run = w /\
      count is_write (since w (snd run)) = 0 /\
      count is_sleep (since w (snd run)) = 0) /\
  (forall dst src,
      (NewTag (Tag_String dst) (refOpts i) = inr err \/
       exists dst',
         NewTag (Tag_String dst) (refOpts i) = inl dst' /\
         NewDigest (Digest_String src) (refOpts i) = inr err) ->
      let run := WriteTag i dst src w in
      fst run = Some err /\
      fst run <> Some ("Writing image tag: " ++ err)%string /\
      snd run = w /\
      count is_write (since w (snd run)) = 0 /\
      count is_sleep (since w (snd run)) = 0).
Proof.
  assert (Hquiet : forall (label : string) (run : option error * World),
             label <> ""%string ->
             run = (Some err, w) ->
             fst run = Some err /\
             fst run <> Some (label ++ err)%string /\
             snd run = w /\
             count is_write (since w (snd run)) = 0 /\
             count is_sleep (since w (snd run)) = 0).
  { intros label run Hlabel ->. cbn [fst snd]. rewrite since_same.
    repeat split.
    intros [= H]. exact (not_own_extension label err Hlabel H). }
  repeat apply conj.
  - intros ref img H run. subst run.
    apply Hquiet; [discriminate|]. unfold WriteImage. now rewrite H.
  - intros ref idx H run. subst run.
    apply Hquiet; [discriminate|]. unfold WriteIndex. now rewrite H.
  - intros dst src H run. subst run.
    apply Hquiet; [discriminate|]. unfold WriteTag.
    destruct H as [H | (dst' & Hdst & H)].
    + now rewrite H.
    + now rewrite Hdst, H.
Qed.

End Facade.


Lemma operation_errors_witness :
  let i := client false in
  let ref := "registry.test/app:v1"%string in
  let src := "registry.test/app@sha256:0"%string in
  let denied := world [] [Some "unauthorized"%string] in
  let off := world [] (down 5) in
  fst (Generic (L := sample) i ref denied) = inr "unauthorized"%string /\
  since denied (snd (Generic (L := sample) i ref denied)) =
    [EvGet (L := sample) ref] /\
  fst (Image (L := sample) i ref denied) = inr "unauthorized"%string /\
  fst (Index (L := sample) i ref denied) = inr "unauthorized"%string /\
  fst (ListTags (L := sample) i ref denied) = inr "unauthorized"%string /\
  fst (WriteImage (L := sample) i ref "image"%string off) =
    Some "Writing image: Retried 5 times: connection refused #5"%string /\
  fst (WriteIndex (L := sample) i ref "index"%string off) =
    Some "Writing image index: Retried 5 times: connection refused #5"%string
  /\
  fst (WriteTag (L := sample) i ref src off) =
    Some "Writing image tag: Retried 5 times: connection refused #5"%string
  /\
  Generic (L := sample) i ""%string off =
    (inr "could not parse reference: "%string, off) /\
  ListTags (L := sample) i ""%string off =
    (inr "could not parse reference: "%string, off) /\
  WriteImage (L := sample) i ""%string "image"%string off =
    (Some "could not parse reference: "%string, off) /\
  WriteIndex (L := sample) i ""%string "index"%string off =
    (Some "could not parse reference: "%string, off) /\
  WriteTag (L := sample) i ref ""%string off =
    (Some "could not parse reference: "%string, off).
Proof.
  cbv zeta.
  destruct (operation_errors (L := sample) (client false)
              (world [] [Some "unauthorized"%string]))
    as (Hgeneric & Himage & Hindex & Hlist & _).
  destruct (operation_errors (L := sample) (client false)
              (world [] (down 5)))
    as (_ & _ & _ & _ & Hwrite & Hwriteindex & Hwritetag
        & Hread' & Hlist' & Hwrite' & Hwriteindex' & Hwritetag').
  split; [now rewrite (Hgeneric "registry.test/app:v1"%string _ eq_refl)|].
  split; [now rewrite (Hgeneric "registry.test/app:v1"%string _ eq_refl)|].
  split; [now rewrite (Himage "registry.test/app:v1"%string _ eq_refl)|].
  split; [now rewrite (Hindex "registry.test/app:v1"%string _ eq_refl)|].
  split; [now rewrite (Hlist "registry.test/app:v1"%string _ eq_refl)|].
  split; [now rewrite (Hwrite "registry.test/app:v1"%string _
                         "image"%string eq_refl)|].
  split; [now rewrite (Hwriteindex "registry.test/app:v1"%string _
                         "index"%string eq_refl)|].
  split; [now rewrite (Hwritetag "registry.test/app:v1"%string _
                         "registry.test/app@sha256:0"%string _
                         eq_refl eq_refl)|].
  split; [exact (proj1 (Hread' ""%string _ eq_refl))|].
  split; [exact (Hlist' ""%string _ eq_refl)|].
  split; [exact (proj1 (Hwrite' ""%string "image"%string _ eq_refl))|].
  split; [exact (proj1 (Hwriteindex' ""%string "index"%string _ eq_refl))|].
  exact (proj1 (Hwritetag' "registry.test/app:v1"%string ""%string _
                  (or_intror (ex_intro _ "registry.test/app:v1"%string
                                (conj eq_refl eq_refl))))).
Defined.

(** C7 has every error of a write operation behind the label of the
    operation.  The error of the parser is not: [WriteImage] returns it as
    it is. *)
Lemma write_error_without_label_counterexample :
  fst (WriteImage (L := sample) (client false) ""%string "image"%string
         (world [] [])) = Some "could not parse reference: "%string /\
  prefix "Writing image: " "could not parse reference: " = false.
Proof. split; reflexivity. Qed.

Lemma reference_rejected_before_network_witness :
  let o := {| CACertPaths := []; VerifyCerts := true; Insecure := false;
              EnvAuthPrefix := "KBLD"%string |} in
  let ref := "registry.test/app:v1"%string in
  let w := world [] [] in
  ParseReference (Library := sample) ""%string [] =
    inr "could not parse reference: "%string /\
  ParseReference (Library := sample) ref [] = inl ref /\
  match NewRegistry (L := sample) o w with
  | (inl i, _) =>
      Generic (L := sample) i ""%string w =
        (inr "could not parse reference: "%string, w) /\
      since w (snd (Generic (L := sample) i ref w)) =
        [EvGet (L := sample) ref]
  | (inr _, _) => False
  end.
Proof.
  cbv zeta. split; [reflexivity|]. split; [reflexivity|].
  destruct (NewRegistry (L := sample)
              {| CACertPaths := []; VerifyCerts := true; Insecure := false;
                 EnvAuthPrefix := "KBLD"%string |} (world [] []))
    as [[i|err] w1] eqn:Hnew; [|discriminate Hnew].
  destruct (reference_rejected_before_network (L := sample) _ _ i w1 Hnew)
    as [Hrejected Haccepted].
  split.
  - apply (proj1 (Hrejected "could not parse reference: "%string
                    (world [] []))).
    reflexivity.
  - apply (proj1 (Haccepted (world [] []))
             "registry.test/app:v1"%string "registry.test/app:v1"%string).
    reflexivity.
Defined.

(** C8 has a reference to a host that only speaks plain HTTP fail at the
    parser when [Insecure] is not set.  Nothing in the package looks at the
    host: with a parser that takes the reference, the client built with
    [Insecure] unset sends the call, and the error that comes back is the
    registry's. *)
Lemma plain_http_host_reaches_registry_counterexample :
  let o := {| CACertPaths := []; VerifyCerts := true; Insecure := false;
              EnvAuthPrefix := ""%string |} in
  let ref := "registry.test:5000/app:v1"%string in
  let refused :=
    "http: server gave HTTP response to HTTPS client"%string in
  let w := world [] [Some refused] in
  Insecure o = false /\
  match NewRegistry (L := sample) o w with
  | (inl i, _) =>
      ParseReference (Library := sample) ref (refOpts i) = inl ref /\
      since w (snd (Generic (L := sample) i ref w)) =
        [EvGet (L := sample) ref] /\
      fst (Generic (L := sample) i ref w) = inr refused
  | (inr _, _) => False
  end.
Proof.
  cbv zeta. split; [reflexivity|]. vm_compute. repeat split.
Qed.

Lemma write_reference_error_unwrapped_witness :
  let run := WriteImage (L := sample) (client false) ""%string
               "image"%string (world [] (down 5)) in
  ParseReference (Library := sample) ""%string (refOpts (client false)) =
    inr "could not parse reference: "%string /\
  fst run = Some "could not parse reference: "%string /\
  fst run <> Some "Writing image: could not parse reference: "%string /\
  snd run = world [] (down 5) /\
  count is_write (since (world [] (down 5)) (snd run)) = 0 /\
  count is_sleep (since (world [] (down 5)) (snd run)) = 0.
Proof.
  cbv zeta. split; [reflexivity|].
  apply (proj1 (write_reference_error_unwrapped (L := sample) (client false)
                  "could not parse reference: "%string
                  (world [] (down 5)))
           ""%string "image"%string).
  reflexivity.
Defined.

(** * Further properties *)

(** ** Client construction *)

Section ConstructionFacts.

Context {L : Library}.

Lemma load_CACertPaths_loaded paths pool pool' w :
  pool_after paths pool (env w) = Some pool' ->
  load_CACertPaths paths pool w =
  (inl pool', {| env := env w; log := log w ++ map EvReadFile paths |}).
Proof.
  revert pool w. induction paths as [|q paths IH]; intros pool w H.
  - injection H as <-. cbn [load_CACertPaths map]. unfold ret.
    rewrite app_nil_r. now destruct w.
  - cbn [load_CACertPaths pool_after map] in *.
    unfold bind, os_ReadFile, observe, record.
    destruct (ReadFile q (env w)) as [certs|cause]; [|discriminate].
    destruct (AppendCertsFromPEM pool certs) as [pool1 [|]]; [|discriminate].
    cbn [negb].
    rewrite (IH pool1 {| env := env w; log := log w ++ [EvReadFile q] |} H).
    cbn [env log]. now rewrite <- app_assoc.
Qed.

(** The loop only reads, one file after the other, and stops where it
    stops. *)
Lemma load_CACertPaths_reads paths pool w :
  env (snd (load_CACertPaths paths pool w)) = env w /\
  exists k, k <= length paths /\
    log (snd (load_CACertPaths paths pool w)) =
    log w ++ map EvReadFile (firstn k paths).
Proof.
  revert pool w. induction paths as [|q paths IH]; intros pool w.
  - split; [reflexivity|]. exists 0. split; [auto|].
    simpl. now rewrite app_nil_r.
  - cbn [load_CACertPaths]. unfold bind, os_ReadFile, observe, record.
    assert (Hstop : forall (r : CertPool + error),
               env (snd (ret r {| env := env w;
                                  log := log w ++ [EvReadFile q] |})) = env w
               /\ exists k, k <= length (q :: paths) /\
                    log (snd (ret r {| env := env w;
                                       log := log w ++ [EvReadFile q] |})) =
                    log w ++ map EvReadFile (firstn k (q :: paths))).
    { intros r. split; [reflexivity|]. exists 1. split; [simpl; lia|].
      reflexivity. }
    destruct (ReadFile q (env w)) as [certs|cause]; [|apply Hstop].
    destruct (AppendCertsFromPEM pool certs) as [pool1 [|]]; cbn [negb];
      [|apply Hstop].
    destruct (IH pool1 {| env := env w; log := log w ++ [EvReadFile q] |})
      as [He (k & Hk & Hl)].
    split; [exact He|]. exists (S k). split; [simpl; lia|].
    rewrite Hl. cbn [log firstn map]. now rewrite <- app_assoc.
Qed.

Lemma NewRegistry_world o w :
  snd (NewRegistry o w) = snd (newHTTPTransport o w).
Proof.
  unfold NewRegistry, bind.
  now destruct (newHTTPTransport o w) as [[t|err] w1].
Qed.

Lemma newHTTPTransport_world o w :
  snd (newHTTPTransport o w) =
  snd (load_CACertPaths (CACertPaths o) (initial_pool (env w))
         (record EvSystemCertPool w)).
Proof.
  rewrite newHTTPTransport_loads.
  now destruct (load_CACertPaths _ _ _) as [[pool|err] w1].
Qed.

Lemma NewRegistry_fails_as_transport o w err :
  fst (newHTTPTransport o w) = inr err -> fst (NewRegistry o w) = inr err.
Proof.
  intros H. unfold NewRegistry, bind.
  destruct (newHTTPTransport o w) as [[t|err'] w1]; simpl in H;
    [discriminate|]. now injection H as ->.
Qed.

Lemma newHTTPTransport_fails_as_loop o w err :
  fst (load_CACertPaths (CACertPaths o) (initial_pool (env w))
         (record EvSystemCertPool w)) = inr err ->
  fst (newHTTPTransport o w) = inr err.
Proof.
  intros H. rewrite newHTTPTransport_loads.
  destruct (load_CACertPaths _ _ _) as [[pool|err'] w1]; simpl in H;
    [discriminate|]. now injection H as ->.
Qed.

(** The run of [NewRegistry] when every CA file loads. *)
Lemma NewRegistry_loaded_run o w pool :
  pool_after (CACertPaths o) (initial_pool (env w)) (env w) = Some pool ->
  NewRegistry o w =
  (inl {| opts :=
            [WithTransport
               {| Proxy := ProxyFromEnvironment;
                  DialContext := {| Timeout := (30 * time_Second)%Z;
                                    KeepAlive := (30 * time_Second)%Z;
                                    DualStack := true |};
                  MaxIdleConns := 100%Z;
                  IdleConnTimeout := (90 * time_Second)%Z;
                  TLSHandshakeTimeout := (10 * time_Second)%Z;
                  ResponseHeaderTimeout := (10 * time_Second)%Z;
                  ExpectContinueTimeout := (1 * time_Second)%Z;
                  TLSClientConfig :=
                    {| RootCAs := pool;
                       InsecureSkipVerify :=
                         Bool.eqb (VerifyCerts o) false |} |};
             WithAuthFromKeychain
               (NewMultiKeychain [NewEnvKeychain (EnvAuthPrefix o);
                                  DefaultKeychain])];
          refOpts := if Insecure o then [name_Insecure] else [] |},
   {| env := env w;
      log := log w ++ EvSystemCertPool :: map EvReadFile (CACertPaths o) |}).
Proof.
  intros H. unfold NewRegistry, bind. rewrite newHTTPTransport_loads.
  rewrite (load_CACertPaths_loaded _ _ pool (record EvSystemCertPool w) H).
  unfold ret. cbn [record env log]. rewrite <- app_assoc.
  now destruct (Insecure o).
Qed.

Lemma substring_front (q b : string) :
  substring 0 (String.length q) (q ++ b) = q.
Proof.
  induction q as [|c q IH]; simpl; [now destruct b|]. now rewrite IH.
Qed.

Lemma substring_middle (a q b : string) :
  substring (String.length a) (String.length q) (a ++ q ++ b) = q.
Proof.
  induction a as [|c a IH]; simpl; [apply substring_front | exact IH].
Qed.

(** A string mentions each of the pieces it is put together from. *)
Lemma mentions_middle (a q b : string) : mentions (a ++ q ++ b) q = true.
Proof.
  unfold mentions.
  destruct (index 0 q (a ++ q ++ b)) as [m|] eqn:E; [reflexivity|].
  destruct q as [|c q].
  - apply index_correct4 in E. lia.
  - exfalso.
    apply (index_correct3 0 (String.length a) _ _ E);
      [discriminate | lia | apply substring_middle].
Qed.

End ConstructionFacts.

Section Construction.

Context {L : Library}.

(** X1: when every CA file of the configuration loads, [NewRegistry] returns
    a client with exactly two options, the transport and the keychain that
    asks the environment (under the configured prefix) before the default
    source.  The transport trusts the pool left by the files, has the fixed
    timeouts and pooling whatever the configuration says, and the run has
    asked for the system pool and read each CA file once, in order, without
    changing the world. *)
Theorem NewRegistry_all_loaded o w pool :
  pool_after (CACertPaths o) (initial_pool (env w)) (env w) = Some pool ->
  exists t,
    NewRegistry o w =
    (inl {| opts := [WithTransport t;
                     WithAuthFromKeychain
                       (NewMultiKeychain [NewEnvKeychain (EnvAuthPrefix o);
                                          DefaultKeychain])];
            refOpts := if Insecure o then [name_Insecure] else [] |},
     {| env := env w;
        log := log w ++ EvSystemCertPool
                 :: map EvReadFile (CACertPaths o) |}) /\
    RootCAs (TLSClientConfig t) = pool /\
    InsecureSkipVerify (TLSClientConfig t) = negb (VerifyCerts o) /\
    Proxy t = ProxyFromEnvironment /\
    Timeout (DialContext t) = (30 * time_Second)%Z /\
    KeepAlive (DialContext t) = (30 * time_Second)%Z /\
    DualStack (DialContext t) = true /\
    MaxIdleConns t = 100%Z /\
    IdleConnTimeout t = (90 * time_Second)%Z /\
    TLSHandshakeTimeout t = (10 * time_Second)%Z /\
    ResponseHeaderTimeout t = (10 * time_Second)%Z /\
    ExpectContinueTimeout t = (1 * time_Second)%Z.
Proof.
  intros H. eexists. split; [exact (NewRegistry_loaded_run o w pool H)|].
  cbn [TLSClientConfig RootCAs InsecureSkipVerify Proxy DialContext Timeout
       KeepAlive DualStack MaxIdleConns IdleConnTimeout TLSHandshakeTimeout
       ResponseHeaderTimeout ExpectContinueTimeout].
  repeat split.
Qed.

(** X2: [NewRegistry] returns a client exactly when every CA file of the
    configuration can be read and holds a certificate; nothing else makes it
    fail. *)
Theorem NewRegistry_succeeds_iff_all_load o w :
  (exists i, fst (NewRegistry o w) = inl i) <->
  pool_after (CACertPaths o) (initial_pool (env w)) (env w) <> None.
Proof.
  split.
  - intros [i Hi] Hnone.
    destruct (load_CACertPaths_fails _ _ (record EvSystemCertPool w) Hnone)
      as (q & _ & [Herr | [c Herr]]);
      apply newHTTPTransport_fails_as_loop, NewRegistry_fails_as_transport
        in Herr; congruence.
  - intros H.
    destruct (pool_after _ _ _) as [pool|] eqn:E; [|congruence].
    rewrite (NewRegistry_loaded_run o w pool E). eexists. reflexivity.
Qed.

(** X3: whatever the configuration and the outcome, [NewRegistry] only asks
    for the system pool and then reads CA files: the files of the
    configuration from the first one on, in order, up to the one it stops
    at.  It leaves the world as it found it: no call to a registry, no
    sleep. *)
Theorem NewRegistry_reads_only o w :
  env (snd (NewRegistry o w)) = env w /\
  exists k, k <= length (CACertPaths o) /\
    since w (snd (NewRegistry o w)) =
    EvSystemCertPool :: map EvReadFile (firstn k (CACertPaths o)).
Proof.
  rewrite NewRegistry_world, newHTTPTransport_world.
  destruct (load_CACertPaths_reads (CACertPaths o) (initial_pool (env w))
              (record EvSystemCertPool w)) as [He (k & Hk & Hl)].
  split; [exact He|]. exists k. split; [exact Hk|].
  apply since_app. rewrite Hl. cbn [record log]. now rewrite <- app_assoc.
Qed.

(** X4: a host whose system pool cannot be had is no obstacle: the error of
    [x509.SystemCertPool] is dropped and the transport trusts the CA files
    of the configuration alone, added to an empty pool. *)
Theorem system_pool_failure_is_dropped o w cause pool :
  SystemCertPool (env w) = inr cause ->
  pool_after (CACertPaths o) NewCertPool (env w) = Some pool ->
  exists t, fst (newHTTPTransport o w) = inl t /\
            RootCAs (TLSClientConfig t) = pool.
Proof.
  intros Hsys Hpool. rewrite newHTTPTransport_loads.
  assert (Hinit : initial_pool (env w) = NewCertPool)
    by (unfold initial_pool; now rewrite Hsys).
  rewrite Hinit.
  rewrite (load_CACertPaths_loaded _ _ pool (record EvSystemCertPool w)
             Hpool).
  eexists. split; reflexivity.
Qed.

(** X5: every error of [NewRegistry] names one of the CA paths of the
    configuration. *)
Theorem construction_error_names_a_path o w err :
  fst (NewRegistry o w) = inr err ->
  exists q, In q (CACertPaths o) /\ mentions err q = true.
Proof.
  intros Herr.
  destruct (pool_after (CACertPaths o) (initial_pool (env w)) (env w))
    as [pool|] eqn:E.
  - rewrite (NewRegistry_loaded_run o w pool E) in Herr. discriminate.
  - destruct (load_CACertPaths_fails _ _ (record EvSystemCertPool w) E)
      as (q & Hq & [H | [c H]]);
      apply newHTTPTransport_fails_as_loop, NewRegistry_fails_as_transport
        in H;
      rewrite H in Herr; injection Herr as <-;
      exists q; (split; [exact Hq|]); apply mentions_middle.
Qed.

End Construction.

Lemma NewRegistry_all_loaded_witness :
  let o := {| CACertPaths := ["a.pem"; "b.pem"]%string; VerifyCerts := true;
              Insecure := true; EnvAuthPrefix := "KBLD"%string |} in
  let w := world [("a.pem", pem); ("b.pem", pem)]%string [] in
  pool_after (L := sample) (CACertPaths o) (initial_pool (env w)) (env w) =
    Some ["system roots"; pem; pem]%string /\
  exists t,
    fst (NewRegistry (L := sample) o w) =
      inl {| opts := [WithTransport t;
                      WithAuthFromKeychain
                        (NewMultiKeychain [NewEnvKeychain "KBLD"%string;
                                           DefaultKeychain])];
             refOpts := [name_Insecure] |} /\
    RootCAs (TLSClientConfig t) = ["system roots"; pem; pem]%string /\
    InsecureSkipVerify (TLSClientConfig t) = false.
Proof.
  cbv zeta. split; [reflexivity|].
  destruct (NewRegistry_all_loaded (L := sample)
              {| CACertPaths := ["a.pem"; "b.pem"]%string;
                 VerifyCerts := true; Insecure := true;
                 EnvAuthPrefix := "KBLD"%string |}
              (world [("a.pem", pem); ("b.pem", pem)]%string [])
              ["system roots"; pem; pem]%string eq_refl)
    as (t & Hrun & Hpool & Hskip & _).
  exists t. split; [now rewrite Hrun|]. split; [exact Hpool | exact Hskip].
Defined.

Lemma system_pool_failure_is_dropped_witness :
  let o := {| CACertPaths := ["a.pem"%string]; VerifyCerts := true;
              Insecure := false; EnvAuthPrefix := ""%string |} in
  let w := rootless_world [("a.pem", pem)%string] in
  SystemCertPool (Library := rootless) (env w) =
    inr "system root pool is not available"%string /\
  exists t, fst (newHTTPTransport (L := rootless) o w) = inl t /\
            RootCAs (TLSClientConfig t) = [pem].
Proof.
  cbv zeta. split; [reflexivity|].
  apply (system_pool_failure_is_dropped (L := rootless)
           {| CACertPaths := ["a.pem"%string]; VerifyCerts := true;
              Insecure := false; EnvAuthPrefix := ""%string |}
           (rootless_world [("a.pem", pem)%string])
           "system root pool is not available"%string [pem]);
    reflexivity.
Defined.

Lemma construction_error_names_a_path_witness :
  let o := {| CACertPaths := ["a.pem"; "b.pem"]%string; VerifyCerts := true;
              Insecure := false; EnvAuthPrefix := ""%string |} in
  let w := world [("a.pem", pem)%string] [] in
  fst (NewRegistry (L := sample) o w) =
    inr ("Reading CA certificates from 'b.pem': "
           ++ "open b.pem: no such file or directory")%string /\
  exists q, In q (CACertPaths o) /\
    mentions ("Reading CA certificates from 'b.pem': "
                ++ "open b.pem: no such file or directory") q = true.
Proof.
  cbv zeta. split; [reflexivity|].
  apply (construction_error_names_a_path (L := sample)
           {| CACertPaths := ["a.pem"; "b.pem"]%string; VerifyCerts := true;
              Insecure := false; EnvAuthPrefix := ""%string |}
           (world [("a.pem", pem)%string] [])).
  reflexivity.
Defined.

(** ** Retried operations, whatever the registry does *)

Section RetriedFacts.

Context {L : Library}.






End RetriedFacts.

Section Retried.

Context {L : Library}.






End Retried.



Section Retagging.

Context {L : Library}.



End Retagging.

